(** * osquery database layer: rows, snapshots, differ, serializer, dispatcher

    A shallow embedding of [osquery/database/database.cpp] and the
    properties of its natural-language specification.

    - [Row] is a [std::map<std::string, std::string>]: a finite map, iterated
      in increasing key order and compared with the lexicographic
      [operator<] of [std::map].
    - [QueryData] is a [std::vector<Row>]: a list.
    - [pt.ptree] is Boost's property tree: a data string and an ordered
      list of named children, addressed by ['.']-separated paths.
    - A function that fills an out-parameter returns the new value of that
      parameter next to its [Status].
    - Code that can throw returns an [outcome]; the virtual methods of a
      database plugin live in a state-and-exception monad over the mutable
      world they can reach. *)

From Stdlib Require Import Ascii String.
From stdpp Require Import base decidable option list sorting gmap strings fin_maps pretty.

Set Warnings "-clear-no-such-hyp".

(** ** Exceptions and results *)

(** What a C++ function can throw.  The first four derive from
    [std::exception], the only exception type the source names: the
    standard library raises [out_of_range] ([std::map::at], [std::stoul])
    and [invalid_argument] ([std::stoul]), Boost raises [ptree_bad_path],
    and a backend reports an internal fault with a [runtime_error].  A
    [throw] expression takes a value of any type, and the virtual methods
    of a backend are free to throw one that does not derive from
    [std::exception] (an [int], a string literal, a class of another
    hierarchy): [thrown_value] stands for those. *)
Inductive exception : Type :=
  | out_of_range (what : string)
  | invalid_argument (what : string)
  | ptree_bad_path (what : string)
  | runtime_error (what : string)
  | thrown_value (description : string).

(** Whether a handler for [const std::exception&] matches. *)
Definition derives_from_std_exception (e : exception) : bool :=
  match e with
  | out_of_range _ | invalid_argument _ | ptree_bad_path _ | runtime_error _ => true
  | thrown_value _ => false
  end.

Inductive outcome (A : Type) : Type :=
  | Returns (a : A)
  | Throws (e : exception).
Arguments Returns {A} a.
Arguments Throws {A} e.

#[global] Instance outcome_ret : MRet outcome := @Returns.
#[global] Instance outcome_bind : MBind outcome := λ A B k c,
  match c with
  | Returns a => k a
  | Throws e => Throws e
  end.

(** Modelled from the spec: the uniform result type, "a status code
    (success/failure) plus a descriptive message".  The source builds
    [Status(0, "OK")] for success and [Status(1, message)] for failure and
    tests it with [ok()]. *)
Record Status : Type := mkStatus { getCode : Z; getMessage : string }.

Definition ok (s : Status) : bool := bool_decide (getCode s = 0%Z).

(** ** Sequences ordered by a strict comparison *)

(** Lexicographic comparison of two sequences by a three-way comparison of
    their elements. *)
Fixpoint lex_compare {A} (cmp : A → A → comparison) (l1 l2 : list A) : comparison :=
  match l1, l2 with
  | [], [] => Eq
  | [], _ :: _ => Lt
  | _ :: _, [] => Gt
  | a :: l1', b :: l2' =>
      match cmp a b with
      | Eq => lex_compare cmp l1' l2'
      | ne => ne
      end
  end.

Definition pair_compare {A B} (cmpA : A → A → comparison) (cmpB : B → B → comparison)
    (p q : A * B) : comparison :=
  match cmpA p.1 q.1 with
  | Eq => cmpB p.2 q.2
  | ne => ne
  end.

(** A three-way comparison that is a total order with [Eq] as equality. *)
Class CmpOrder {A : Type} (cmp : A → A → comparison) : Prop := {
  cmp_eq_iff : ∀ a b, cmp a b = Eq ↔ a = b;
  cmp_antisym : ∀ a b, cmp b a = CompOpp (cmp a b);
  cmp_lt_trans : ∀ a b c, cmp a b = Lt → cmp b c = Lt → cmp a c = Lt
}.

(** A boolean [operator<] that is a strict total order. *)
Class StrictTotal {A : Type} (ltb : A → A → bool) : Prop := {
  ltb_irrefl : ∀ a, ltb a a = false;
  ltb_trans : ∀ a b c, ltb a b = true → ltb b c = true → ltb a c = true;
  ltb_total : ∀ a b, ltb a b = false → ltb b a = false → a = b
}.

(** [std::lexicographical_compare] with [operator<] on the elements. *)
Fixpoint lexicographical_compare {A} (ltb : A → A → bool) (l1 l2 : list A) : bool :=
  match l1, l2 with
  | _, [] => false
  | [], _ :: _ => true
  | a :: l1', b :: l2' =>
      if ltb a b then true
      else if ltb b a then false
      else lexicographical_compare ltb l1' l2'
  end.

(** [operator<] of [std::pair]. *)
Definition pair_ltb {A B} (ltA : A → A → bool) (ltB : B → B → bool) (p q : A * B) : bool :=
  ltA p.1 q.1 || (negb (ltA q.1 p.1) && ltB p.2 q.2).

(** Insertion into an ordered container: the new element goes after every
    element that is not greater than it. *)
Fixpoint ordered_insert {A} (ltb : A → A → bool) (x : A) (s : list A) : list A :=
  match s with
  | [] => [x]
  | y :: s' => if ltb x y then x :: s else y :: ordered_insert ltb x s'
  end.

(** The range constructor of an ordered container. *)
Definition ordered_of_list {A} (ltb : A → A → bool) (l : list A) : list A :=
  foldl (λ s x, ordered_insert ltb x s) [] l.

(** [std::set_difference] on two sorted ranges, copying to the output
    every element of the first range that finds no partner in the second. *)
Fixpoint set_difference {A} (ltb : A → A → bool) (l1 : list A) : list A → list A :=
  fix go (l2 : list A) : list A :=
    match l1, l2 with
    | [], _ => []
    | _, [] => l1
    | x1 :: l1', x2 :: l2' =>
        if ltb x1 x2 then x1 :: set_difference ltb l1' l2
        else if ltb x2 x1 then go l2'
        else set_difference ltb l1' l2'
    end.

(** [x] is not greater than [y]: the order of a sorted range. *)
Definition not_after {A} (ltb : A → A → bool) (x y : A) : Prop := ltb y x = false.

(** Number of elements equal to [x]. *)
Definition occurrences `{EqDecision A} (x : A) (l : list A) : nat :=
  length (filter (λ y, y = x) l).

(** ** Boost property trees ([namespace pt = boost::property_tree]) *)

Module pt.

(** A [basic_ptree<std::string, std::string>]: the node's own data and its
    children in insertion order; keys may repeat. *)
#[warnings="-register-all"]
Inductive ptree : Type :=
  | Node (d : string) (cs : list (string * ptree)).

Definition data (t : ptree) : string := let 'Node d _ := t in d.
Definition children (t : ptree) : list (string * ptree) := let 'Node _ cs := t in cs.

(** [pt::ptree()] *)
Definition empty : ptree := Node "" [].
Definition leaf (v : string) : ptree := Node v [].

Definition push_back (kv : string * ptree) (t : ptree) : ptree :=
  Node (data t) (children t ++ [kv]).

Definition put_value (v : string) (t : ptree) : ptree := Node v (children t).

(** [find(key)]: the first child with that key. *)
Fixpoint find (key : string) (cs : list (string * ptree)) : option ptree :=
  match cs with
  | [] => None
  | (k, c) :: cs' => if decide (k = key) then Some c else find key cs'
  end.

(** [count(key)]: the number of children with that key. *)
Definition count (key : string) (t : ptree) : nat :=
  length (filter (λ kc, kc.1 = key) (children t)).

(** Assignment through the reference [find(key)->second]. *)
Fixpoint alter_first (key : string) (g : ptree → ptree)
    (cs : list (string * ptree)) : list (string * ptree) :=
  match cs with
  | [] => []
  | (k, c) :: cs' =>
      if decide (k = key) then (k, g c) :: cs' else (k, c) :: alter_first key g cs'
  end.

(** A [string_path] splits at every ['.'].  [split_path] lists the
    fragments [force_path] and the final [reduce] of [put_child] and
    [add_child] consume: never empty, and a path that ends in a separator
    has a last fragment [""] (Boost asserts against such paths in a debug
    build; this is what a build without assertions does). *)
Fixpoint split_path (p : string) : list string :=
  match p with
  | EmptyString => [""]
  | String c p' =>
      if decide (c = "."%char) then "" :: split_path p'
      else match split_path p' with
           | f :: fs => String c f :: fs
           | [] => [String c ""]
           end
  end.

(** [walk_path] stops as soon as the path is used up, so it never sees the
    empty fragment after a final separator (nor any fragment of [""]). *)
Fixpoint walk_fragments_of (fs : list string) : list string :=
  match fs with
  | [] => []
  | f :: fs' =>
      match fs' with
      | [] => if decide (f = "") then [] else [f]
      | _ :: _ => f :: walk_fragments_of fs'
      end
  end.

Definition walk_fragments (p : string) : list string := walk_fragments_of (split_path p).

Fixpoint walk_path (fs : list string) (t : ptree) : option ptree :=
  match fs with
  | [] => Some t
  | f :: fs' =>
      match find f (children t) with
      | None => None
      | Some c => walk_path fs' c
      end
  end.

Definition get_child_optional (path : string) (t : ptree) : option ptree :=
  walk_path (walk_fragments path) t.

(** [get_child(path)] throws [ptree_bad_path] when the path leads nowhere. *)
Definition get_child (path : string) (t : ptree) : outcome ptree :=
  match get_child_optional path t with
  | Some c => Returns c
  | None => Throws (ptree_bad_path ("No such node (" +:+ path +:+ ")"))
  end.

(** Write through the reference [walk_path] returns. *)
Fixpoint alter_path (fs : list string) (g : ptree → ptree) (t : ptree) : ptree :=
  match fs with
  | [] => g t
  | f :: fs' => Node (data t) (alter_first f (alter_path fs' g) (children t))
  end.

(** One step of [force_path]: go down the first child named [key], or
    append a fresh one, and continue there with [g]. *)
Definition force_child (key : string) (g : ptree → ptree) (t : ptree) : ptree :=
  match find key (children t) with
  | Some _ => Node (data t) (alter_first key g (children t))
  | None => push_back (key, g empty) t
  end.

(** [put_child(path, value)]: force the parent, then replace the child
    named by the last fragment or append it. *)
Fixpoint put_child_at (fs : list string) (value : ptree) (t : ptree) : ptree :=
  match fs with
  | [] => value
  | f :: fs' => force_child f (put_child_at fs' value) t
  end.

Definition put_child (path : string) (value : ptree) (t : ptree) : ptree :=
  put_child_at (split_path path) value t.

(** [add_child(path, value)]: force the parent, then always append. *)
Fixpoint add_child_at (fs : list string) (value : ptree) (t : ptree) : ptree :=
  match fs with
  | [] => t
  | f :: fs' =>
      match fs' with
      | [] => push_back (f, value) t
      | _ :: _ => force_child f (add_child_at fs' value) t
      end
  end.

Definition add_child (path : string) (value : ptree) (t : ptree) : ptree :=
  add_child_at (split_path path) value t.

(** [put<std::string>(path, value)]: if the path already leads to a node,
    set that node's data; otherwise [put_child] an empty node there and
    set its data.  The string translator is the identity and cannot fail. *)
Definition put (path : string) (value : string) (t : ptree) : ptree :=
  match get_child_optional path t with
  | Some _ => alter_path (walk_fragments path) (put_value value) t
  | None => put_child path (leaf value) t
  end.

(** [put<int>(path, value)]: the stream translator prints the decimal
    numeral. *)
Definition put_int (path : string) (value : Z) (t : ptree) : ptree :=
  put path (pretty value) t.

(** [get<std::string>(path, default)] *)
Definition get (path : string) (default : string) (t : ptree) : string :=
  match get_child_optional path t with
  | Some c => data c
  | None => default
  end.

End pt.

Abbreviation ptree := pt.ptree.

(** ** Data model *)

(** [Row]: column name to value.  [QueryData]: a vector of rows. *)
Abbreviation Row := (gmap string string).
Abbreviation QueryData := (list (gmap string string)).

(** The key order of [std::map<std::string, Tp>]. *)
Definition key_ltb {B} (p q : string * B) : bool := String.ltb p.1 q.1.

(** What iterating over a [std::map<std::string, std::string>] yields: its
    entries in increasing key order. *)
Definition map_items (m : gmap string string) : list (string * string) :=
  ordered_of_list key_ltb (map_to_list m).

(** [operator<] on [Row], the order of [std::multiset<Row>]. *)
Definition Row_ltb (r1 r2 : Row) : bool :=
  lexicographical_compare (pair_ltb String.ltb String.ltb) (map_items r1) (map_items r2).

(** The same order as a three-way comparison. *)
Definition Row_compare (r1 r2 : Row) : comparison :=
  lex_compare (pair_compare String.compare String.compare) (map_items r1) (map_items r2).

(** [std::multiset<Row>(first, last)] *)
Definition multiset_of (q : QueryData) : list Row := ordered_of_list Row_ltb q.

Record DiffResults : Type := mkDiffResults {
  added : QueryData;
  removed : QueryData
}.

(** Modelled from the spec: the [QueryLogItem] structure, declared in a
    header outside this translation unit: "name", "identifier",
    "calendar_time", "time (integer unix timestamp)", "decorations
    (mapping string to string)", the differential [results] and the
    [snapshot_results]. *)
Record QueryLogItem : Type := mkQueryLogItem {
  results : DiffResults;
  snapshot_results : QueryData;
  name : string;
  identifier : string;
  time : Z;
  calendar_time : string;
  decorations : gmap string string
}.

(** ** Row serialization *)

(** The entries are written in the key order of the map.  [pt.put] on
    strings cannot throw, so the [catch] branch of the source is dead and
    the status is always [Status(0, "OK")]. *)
Definition serializeRow (r : Row) (tree : ptree) : Status * ptree :=
  (mkStatus 0 "OK", foldl (λ t i, pt.put i.1 i.2 t) tree (map_items r)).

(** Every child with a non-empty name becomes an entry of the row. *)
Definition deserializeRow (tree : ptree) (r : Row) : Status * Row :=
  (mkStatus 0 "OK",
   foldl (λ r i, if decide (0 < String.length i.1) then <[i.1 := pt.data i.2]> r else r)
         r (pt.children tree)).

(** ** QueryData serialization *)

Fixpoint serializeQueryData (q : QueryData) (tree : ptree) : Status * ptree :=
  match q with
  | [] => (mkStatus 0 "OK", tree)
  | r :: q' =>
      let '(s, serialized) := serializeRow r pt.empty in
      if negb (ok s) then (s, tree)
      else serializeQueryData q' (pt.push_back ("", serialized) tree)
  end.

Fixpoint deserializeQueryData_loop (cs : list (string * ptree)) (qd : QueryData)
    : Status * QueryData :=
  match cs with
  | [] => (mkStatus 0 "OK", qd)
  | i :: cs' =>
      let '(status, r) := deserializeRow i.2 ∅ in
      if negb (ok status) then (status, qd)
      else deserializeQueryData_loop cs' (qd ++ [r])
  end.

Definition deserializeQueryData (tree : ptree) (qd : QueryData) : Status * QueryData :=
  deserializeQueryData_loop (pt.children tree) qd.

(** ** DiffResults serialization *)

Definition serializeDiffResults (d : DiffResults) (tree : ptree) : Status * ptree :=
  let '(status, added_tree) := serializeQueryData (added d) pt.empty in
  if negb (ok status) then (status, tree)
  else
    let tree := pt.add_child "added" added_tree tree in
    let '(status, removed_tree) := serializeQueryData (removed d) pt.empty in
    if negb (ok status) then (status, tree)
    else (mkStatus 0 "OK", pt.add_child "removed" removed_tree tree).

Definition deserializeDiffResults (tree : ptree) (dr : DiffResults)
    : outcome (Status * DiffResults) :=
  '(status, dr) ←
    (if decide (0 < pt.count "added" tree) then
       child ← pt.get_child "added" tree;
       let '(status, qd) := deserializeQueryData child (added dr) in
       mret (status, mkDiffResults qd (removed dr))
     else mret (mkStatus 0 "OK", dr));
  if negb (ok status) then mret (status, dr)
  else
    if decide (0 < pt.count "removed" tree) then
      child ← pt.get_child "removed" tree;
      let '(status, qd) := deserializeQueryData child (removed dr) in
      if negb (ok status) then mret (status, mkDiffResults (added dr) qd)
      else mret (mkStatus 0 "OK", mkDiffResults (added dr) qd)
    else mret (mkStatus 0 "OK", dr).

(** ** The differ *)

(** [std::find(old.begin(), old.end(), i) != old.end()] *)
Definition found (i : Row) (old : QueryData) : bool := bool_decide (i ∈ old).

Definition diff (old current : QueryData) : DiffResults :=
  let '(overlap, r_added) :=
    foldl (λ '(overlap, r_added) i,
             if found i old then (overlap ++ [i], r_added)
             else (overlap, r_added ++ [i]))
          ([], []) current in
  let overlap_set := multiset_of overlap in
  let old_set := multiset_of old in
  {| added := r_added; removed := set_difference Row_ltb old_set overlap_set |}.

Definition addUniqueRowToQueryData (q : QueryData) (r : Row) : bool * QueryData :=
  if found r q then (false, q) else (true, q ++ [r]).

(** ** QueryLogItem serialization *)

Section query_log_item.

(** The gflags boolean [FLAGS_decorations_top_level], declared here and
    defined elsewhere. *)
Variable FLAGS_decorations_top_level : bool.

(** [decorator_parent] is a reference to the node the decorations go
    into: the document itself, or its first [decorations] child once that
    has been appended. *)
Definition addLegacyFieldsAndDecorations (item : QueryLogItem) (tree : ptree)
    : outcome ptree :=
  let tree := pt.put "name" (name item) tree in
  let tree := pt.put "hostIdentifier" (identifier item) tree in
  let tree := pt.put "calendarTime" (calendar_time item) tree in
  let tree := pt.put_int "unixTime" (time item) tree in
  if decide (0 < size (decorations item)) then
    let put_all (parent : ptree) : ptree :=
      foldl (λ t d, pt.put d.1 d.2 t) parent (map_items (decorations item)) in
    if negb FLAGS_decorations_top_level then
      let tree := pt.add_child "decorations" pt.empty tree in
      _ ← pt.get_child "decorations" tree;
      mret (pt.alter_path (pt.walk_fragments "decorations") put_all tree)
    else mret (put_all tree)
  else mret tree.

Definition serializeQueryLogItem (item : QueryLogItem) (tree : ptree)
    : outcome (Status * ptree) :=
  if decide (0 < length (added (results item)) ∨ 0 < length (removed (results item))) then
    let '(status, results_tree) := serializeDiffResults (results item) pt.empty in
    if negb (ok status) then mret (status, tree)
    else
      let tree := pt.add_child "diffResults" results_tree tree in
      tree ← addLegacyFieldsAndDecorations item tree;
      mret (mkStatus 0 "OK", tree)
  else
    let '(status, results_tree) := serializeQueryData (snapshot_results item) pt.empty in
    if negb (ok status) then mret (status, tree)
    else
      let tree := pt.add_child "snapshot" results_tree tree in
      let tree := pt.put "action" "snapshot" tree in
      tree ← addLegacyFieldsAndDecorations item tree;
      mret (mkStatus 0 "OK", tree).





End query_log_item.

(** ** The database plugin *)

(** Everything a plugin method can read or write: the static members of
    [DatabasePlugin], the [read_only_] member of the instance, and the
    state of the concrete backend. *)
Record World (B : Type) : Type := mkWorld {
  kDBHandleOptionAllowOpen : bool;
  kDBHandleOptionRequireWrite : bool;
  kCheckingDB : bool;
  read_only_ : bool;
  backend : B
}.
Arguments mkWorld {B}.
Arguments kDBHandleOptionAllowOpen {B}.
Arguments kDBHandleOptionRequireWrite {B}.
Arguments kCheckingDB {B}.
Arguments read_only_ {B}.
Arguments backend {B}.

Definition set_kCheckingDB {B} (b : bool) (w : World B) : World B :=
  mkWorld (kDBHandleOptionAllowOpen w) (kDBHandleOptionRequireWrite w) b
          (read_only_ w) (backend w).

(** Computations that read and write the world and return or throw.  The
    effects made before a throw stay. *)
Definition M (W A : Type) : Type := W → outcome A * W.

Definition ret {W A} (a : A) : M W A := λ w, (Returns a, w).
Definition bind {W A B} (c : M W A) (k : A → M W B) : M W B := λ w,
  match c w with
  | (Returns a, w') => k a w'
  | (Throws e, w') => (Throws e, w')
  end.
Definition lift {W A} (o : outcome A) : M W A := λ w, (o, w).
Definition gets {W A} (f : W → A) : M W A := λ w, (Returns (f w), w).
Definition modify {W} (f : W → W) : M W unit := λ w, (Returns tt, f w).

(** [try { body } catch (const std::exception& e) { handler }]: the
    handler runs for an exception that derives from [std::exception]; any
    other thrown value leaves the statement as it came. *)
Definition try_catch {W A} (body : M W A) (handler : exception → M W A) : M W A := λ w,
  match body w with
  | (Returns a, w') => (Returns a, w')
  | (Throws e, w') =>
      if derives_from_std_exception e then handler e w' else (Throws e, w')
  end.

Declare Scope M_scope.
Delimit Scope M_scope with M.
Notation "'let*' x := c 'in' k" := (bind c (λ x, k))
  (at level 10, x pattern, c at level 100, k at level 200) : M_scope.
Notation "c1 ;; c2" := (bind c1 (λ _, c2))
  (at level 100, c2 at level 200, right associativity) : M_scope.

Abbreviation PluginRequest := (gmap string string).
Abbreviation PluginResponse := (list (gmap string string)).

(** The pure virtual methods of [DatabasePlugin].  [get] and [scan] fill
    an out-parameter, whose value they receive and return. *)
Class DatabasePlugin (B : Type) : Type := {
  setUp : M (World B) Status;
  tearDown : M (World B) unit;
  get : string → string → string → M (World B) (Status * string);
  put : string → string → string → M (World B) Status;
  remove : string → string → M (World B) Status;
  scan : string → list string → string → N → M (World B) (Status * list string)
}.

(** [std::map::count] and [std::map::at] *)
Definition request_count (key : string) (request : PluginRequest) : nat :=
  if request !! key is Some _ then 1 else 0.

Definition request_at (key : string) (request : PluginRequest) : outcome string :=
  match request !! key with
  | Some v => Returns v
  | None => Throws (out_of_range "map::at")
  end.

(** [std::stoul] in base 10: [strtoul] skips white space, reads an
    optional sign and the longest run of digits; no digit is an
    [invalid_argument], a value above [ULONG_MAX] an [out_of_range].
    [unsigned long] and [size_t] are 64 bits wide. *)
Definition isspace (c : ascii) : bool :=
  bool_decide (c ∈ [" "%char; "009"%char; "010"%char; "011"%char; "012"%char; "013"%char]).

Definition digit_value (c : ascii) : option N :=
  let n := N_of_ascii c in
  if decide (48 ≤ n ≤ 57)%N then Some (n - 48)%N else None.

Fixpoint skip_spaces (s : string) : string :=
  match s with
  | String c s' => if isspace c then skip_spaces s' else s
  | EmptyString => s
  end.

Fixpoint read_digits (s : string) (acc : option N) : option N :=
  match s with
  | String c s' =>
      match digit_value c with
      | Some d => read_digits s' (Some (10 * default 0 acc + d)%N)
      | None => acc
      end
  | EmptyString => acc
  end.

Definition ULONG_MAX : N := (2 ^ 64 - 1)%N.

Definition stoul (str : string) : outcome N :=
  let s := skip_spaces str in
  let '(negative, s) :=
    match s with
    | String "-" s' => (true, s')
    | String "+" s' => (false, s')
    | _ => (false, s)
    end in
  match read_digits s None with
  | None => Throws (invalid_argument "stoul")
  | Some n =>
      if decide (ULONG_MAX < n)%N then Throws (out_of_range "stoul")
      else Returns (if negative then ((2 ^ 64 - n) mod 2 ^ 64)%N else n)
  end.

Section database_plugin.
Context {B : Type} {plugin : DatabasePlugin B}.
Local Open Scope M_scope.

Definition reset : M (World B) Status :=
  tearDown ;; setUp.

Definition checkDB : M (World B) bool :=
  modify (set_kCheckingDB true) ;;
  let result := true in
  let* result :=
    try_catch
      (let* status := setUp in
       let* require_write := gets kDBHandleOptionRequireWrite in
       let* read_only := gets read_only_ in
       let result := if require_write && read_only then false else result in
       tearDown ;;
       let result := ok status in
       ret result)
      (λ e, let result := false in ret result) in
  modify (set_kCheckingDB false) ;;
  ret result.

(** [call] appends to [response] only after the backend has returned, so
    the response is returned next to the status and is the caller's
    unchanged one when an exception escapes. *)
Definition call (request : PluginRequest) (response : PluginResponse)
    : M (World B) (Status * PluginResponse) :=
  if decide (request_count "action" request = 0) then
    ret (mkStatus 1 "Database plugin must include a request action", response)
  else
    let* domain := (if decide (0 < request_count "domain" request)
                    then lift (request_at "domain" request) else ret "") in
    let* key := (if decide (0 < request_count "key" request)
                 then lift (request_at "key" request) else ret "") in
    let* action := lift (request_at "action" request) in
    if decide (action = "get") then
      let value := "" in
      let* (status, value) := get domain key value in
      ret (status, response ++ [{[ "v" := value ]}])
    else if decide (action = "put") then
      if decide (request_count "value" request = 0) then
        ret (mkStatus 1 "Database plugin put action requires a value", response)
      else
        let* value := lift (request_at "value" request) in
        let* status := put domain key value in
        ret (status, response)
    else if decide (action = "remove") then
      let* status := remove domain key in
      ret (status, response)
    else if decide (action = "scan") then
      let keys := [] in
      let max := 0%N in
      let* max := (if decide (0 < request_count "max" request)
                   then let* m := lift (request_at "max" request) in lift (stoul m)
                   else ret max) in
      let* prefix := lift (request_at "prefix" request) in
      let* (status, keys) := scan domain keys prefix max in
      ret (status, response ++ ((λ key, {[ "k" := key ]}) <$> keys))
    else
      ret (mkStatus 1 "Unknown database plugin action", response).

End database_plugin.

(** ** Properties the specification states *)

(** The invariant the specification gives for [DiffResults], as worded:
    every added row was absent from the prior snapshot; every removed row
    was present in it and has no matching instance in the new one. *)
Definition DiffResults_invariant (old current : QueryData) (d : DiffResults) : Prop :=
  (∀ r, r ∈ added d → r ∉ old) ∧
  (∀ r, r ∈ removed d → r ∈ old ∧ r ∉ current).

(** The same with multiplicities: a removed row has more instances in the
    prior snapshot than in the new one, and [removed] holds the surplus. *)
Definition DiffResults_multiset_invariant (old current : QueryData) (d : DiffResults) : Prop :=
  (∀ r, r ∈ added d → r ∉ old) ∧
  (∀ r, r ∈ removed d → r ∈ old ∧ occurrences r current < occurrences r old) ∧
  (∀ r, occurrences r (removed d) = occurrences r old - occurrences r current).



(** What [addUniqueRowToQueryData] does to the sequence and returns. *)
Definition unique_insert (q : QueryData) (r : Row) (res : bool * QueryData) : Prop :=
  (res = (true, q ++ [r]) ↔ r ∉ q) ∧
  (r ∈ q → res = (false, q)).

(** A name that is one non-empty path fragment: it has no separator. *)
Definition simple_key (k : string) : Prop :=
  k ≠ "" ∧ "."%char ∉ list_ascii_of_string k.

#[global] Instance simple_key_dec k : Decision (simple_key k) :=
  and_dec _ _.

Definition simple_keys (m : gmap string string) : Prop :=
  map_Forall (λ k _, simple_key k) m.

(** The leaf children that hold a list of name and value pairs. *)
Definition leaves (items : list (string * string)) : list (string * ptree) :=
  (λ kv, (kv.1, pt.leaf kv.2)) <$> items.

(** Serialize into an empty tree, then deserialize into an empty target. *)
Definition Row_roundtrip (r : Row) : Prop :=
  ∃ tree, serializeRow r pt.empty = (mkStatus 0 "OK", tree) ∧
          deserializeRow tree ∅ = (mkStatus 0 "OK", r).

Definition QueryData_roundtrip (q : QueryData) : Prop :=
  ∃ tree, serializeQueryData q pt.empty = (mkStatus 0 "OK", tree) ∧
          deserializeQueryData tree [] = (mkStatus 0 "OK", q).

Definition DiffResults_roundtrip (d : DiffResults) : Prop :=
  ∃ tree, serializeDiffResults d pt.empty = (mkStatus 0 "OK", tree) ∧
          deserializeDiffResults tree (mkDiffResults [] []) = Returns (mkStatus 0 "OK", d).

(** The first fragment of a path: the name of the top-level child that a
    [put] on the path reads or writes. *)
Definition first_fragment (path : string) : string := hd "" (pt.split_path path).

(** Decorations are nested under [decorations], or, when they go to the
    top level, none of them starts with a reserved field name. *)
Definition top_level_clear (FLAGS_decorations_top_level : bool)
    (reserved : list string) (decs : gmap string string) : Prop :=
  FLAGS_decorations_top_level = false ∨
  map_Forall (λ k _, first_fragment k ∉ reserved) decs.







(** The payload of a serialized [QueryLogItem]: a [diffResults] child
    exactly when the diff is non-empty, and otherwise a [snapshot] child
    and the [action] "snapshot". *)
Definition payload_selected (FLAGS_decorations_top_level : bool) (item : QueryLogItem) : Prop :=
  ∃ tree,
    serializeQueryLogItem FLAGS_decorations_top_level item pt.empty =
      Returns (mkStatus 0 "OK", tree) ∧
    if decide (added (results item) = [] ∧ removed (results item) = []) then
      pt.count "diffResults" tree = 0 ∧
      pt.get_child "snapshot" tree =
        Returns (serializeQueryData (snapshot_results item) pt.empty).2 ∧
      pt.get "action" "" tree = "snapshot"
    else
      pt.get_child "diffResults" tree =
        Returns (serializeDiffResults (results item) pt.empty).2 ∧
      pt.count "snapshot" tree = 0.

Definition payload_reserved : list string := ["diffResults"; "snapshot"; "action"].

(** Two trees agree on their children named [key]. *)
Definition same_child (key : string) (t1 t2 : ptree) : Prop :=
  pt.find key (pt.children t1) = pt.find key (pt.children t2) ∧
  pt.count key t1 = pt.count key t2.

(** ** Concrete inputs *)

Definition row_a1 : Row := {[ "a" := "1" ]}.
Definition row_b2 : Row := {[ "b" := "2" ]}.

(** A row with an empty column name, and one with a dotted column name. *)
Definition row_empty_name : Row := {[ "" := "x" ]}.



(** An item with no results at all and a decoration named [action]. *)
Definition item_decorated_action : QueryLogItem :=
  mkQueryLogItem (mkDiffResults [] []) [] "query" "host" 1 "now" {[ "action" := "x" ]}.

(** Requests: an unknown action, a scan without [prefix], and a scan whose
    [max] is no numeral. *)
Definition request_bogus : PluginRequest := {[ "action" := "bogus" ]}.
Definition request_scan_no_prefix : PluginRequest := {[ "action" := "scan" ]}.
Definition request_scan_bad_max : PluginRequest :=
  {[ "action" := "scan"; "prefix" := ""; "max" := "abc" ]}.

(** A backend that records the name of every method called on it and
    reports success. *)
Definition record {A} (method : string) (a : A) : M (World (list string)) A := λ w,
  (Returns a,
   mkWorld (kDBHandleOptionAllowOpen w) (kDBHandleOptionRequireWrite w) (kCheckingDB w)
           (read_only_ w) (backend w ++ [method])).

Definition recording_plugin : DatabasePlugin (list string) := {|
  setUp := record "setUp" (mkStatus 0 "OK");
  tearDown := record "tearDown" tt;
  get := λ domain key value, record "get" (mkStatus 0 "OK", value);
  put := λ domain key value, record "put" (mkStatus 0 "OK");
  remove := λ domain key, record "remove" (mkStatus 0 "OK");
  scan := λ domain keys prefix max, record "scan" (mkStatus 0 "OK", keys)
|}.



(** A world whose handle is read-only while writes are required. *)
Definition world_read_only : World (list string) :=
  mkWorld false true false true [].

Definition world_idle : World (list string) :=
  mkWorld false false false false [].

(** * Properties *)

(** ** Orders *)

Section cmp_order.
Context {A : Type} (cmp : A → A → comparison) `{!CmpOrder cmp}.

Lemma cmp_refl a : cmp a a = Eq.
Proof. by apply cmp_eq_iff. Qed.

Lemma cmp_gt_lt a b : cmp a b = Gt ↔ cmp b a = Lt.
Proof. rewrite (cmp_antisym (cmp:=cmp) a b). destruct (cmp a b); naive_solver. Qed.

Context (ltb : A → A → bool) (Hltb : ∀ a b, ltb a b = true ↔ cmp a b = Lt).

Lemma ltb_false_iff a b : ltb a b = false ↔ cmp a b ≠ Lt.
Proof. rewrite <-Hltb. by destruct (ltb a b). Qed.

Lemma strict_total_of_cmp : StrictTotal ltb.
Proof.
  split.
  - intros a. apply ltb_false_iff. by rewrite cmp_refl.
  - intros a b c. rewrite !Hltb. apply cmp_lt_trans.
  - intros a b. rewrite !ltb_false_iff. intros Hab Hba.
    apply (cmp_eq_iff (cmp:=cmp)). destruct (cmp a b) eqn:E; [done|done|].
    by apply cmp_gt_lt in E.
Qed.

Lemma lexicographical_compare_lex l1 l2 :
  lexicographical_compare ltb l1 l2 = true ↔ lex_compare cmp l1 l2 = Lt.
Proof.
  revert l2. induction l1 as [|a l1 IH]; intros [|b l2]; simpl; try done.
  destruct (ltb a b) eqn:Eab.
  - apply Hltb in Eab. by rewrite Eab.
  - destruct (ltb b a) eqn:Eba.
    + apply Hltb, cmp_gt_lt in Eba. by rewrite Eba.
    + apply ltb_false_iff in Eab, Eba. destruct (cmp a b) eqn:E; [apply IH|done|].
      by apply cmp_gt_lt in E.
Qed.
End cmp_order.

#[global] Instance lex_compare_order {A} (cmp : A → A → comparison) :
  CmpOrder cmp → CmpOrder (lex_compare cmp).
Proof.
  intros Hc. split.
  - intros l1. induction l1 as [|a l1 IH]; intros [|b l2]; simpl; try done.
    destruct (cmp a b) eqn:E.
    + apply cmp_eq_iff in E as ->. rewrite (IH l2). naive_solver.
    + split; [done|]. intros [= -> _]. by rewrite cmp_refl in E.
    + split; [done|]. intros [= -> _]. by rewrite cmp_refl in E.
  - intros l1. induction l1 as [|a l1 IH]; intros [|b l2]; simpl; try done.
    rewrite (cmp_antisym (cmp:=cmp) a b). destruct (cmp a b); simpl; auto.
  - intros l1. induction l1 as [|a l1 IH]; intros [|b l2] [|c l3]; simpl; try done.
    destruct (cmp a b) eqn:E1; try done.
    + apply cmp_eq_iff in E1 as ->. destruct (cmp b c); eauto.
    + intros _. destruct (cmp b c) eqn:E2; try done.
      * apply cmp_eq_iff in E2 as ->. by rewrite E1.
      * by rewrite (cmp_lt_trans _ _ _ E1 E2).
Qed.

#[global] Instance pair_compare_order {A B}
    (cmpA : A → A → comparison) (cmpB : B → B → comparison) :
  CmpOrder cmpA → CmpOrder cmpB → CmpOrder (pair_compare cmpA cmpB).
Proof.
  intros HA HB. split.
  - intros [a1 b1] [a2 b2]. unfold pair_compare; simpl.
    destruct (cmpA a1 a2) eqn:E.
    + apply cmp_eq_iff in E as ->. rewrite cmp_eq_iff. naive_solver.
    + split; [done|]. intros [= -> _]. by rewrite cmp_refl in E.
    + split; [done|]. intros [= -> _]. by rewrite cmp_refl in E.
  - intros [a1 b1] [a2 b2]. unfold pair_compare; simpl.
    rewrite (cmp_antisym (cmp:=cmpA) a1 a2). destruct (cmpA a1 a2); simpl; auto.
    apply (cmp_antisym (cmp:=cmpB)).
  - intros [a1 b1] [a2 b2] [a3 b3]. unfold pair_compare; simpl.
    destruct (cmpA a1 a2) eqn:E1; try done.
    + apply cmp_eq_iff in E1 as ->. destruct (cmpA a2 a3); eauto using cmp_lt_trans.
    + intros _. destruct (cmpA a2 a3) eqn:E2; try done.
      * apply cmp_eq_iff in E2 as ->. by rewrite E1.
      * by rewrite (cmp_lt_trans _ _ _ E1 E2).
Qed.

Lemma pair_ltb_compare {A B} (cmpA : A → A → comparison) (cmpB : B → B → comparison)
    `{!CmpOrder cmpA} ltA ltB :
  (∀ a b, ltA a b = true ↔ cmpA a b = Lt) →
  (∀ a b, ltB a b = true ↔ cmpB a b = Lt) →
  ∀ p q, pair_ltb ltA ltB p q = true ↔ pair_compare cmpA cmpB p q = Lt.
Proof.
  intros HA HB [a1 b1] [a2 b2]. unfold pair_ltb, pair_compare; simpl.
  rewrite orb_true_iff, andb_true_iff, negb_true_iff, HB, HA.
  rewrite (ltb_false_iff cmpA ltA HA), <-(cmp_gt_lt cmpA a1 a2).
  destruct (cmpA a1 a2); naive_solver.
Qed.

(** [std::string] compares its bytes as unsigned values. *)
#[global] Instance ascii_compare_order : CmpOrder Ascii.compare.
Proof.
  split.
  - intros a b. split; [apply Ascii.compare_eq_iff|].
    intros ->. unfold Ascii.compare. apply N.compare_refl.
  - intros a b. apply Ascii.compare_antisym.
  - intros a b c. unfold Ascii.compare. rewrite !N.compare_lt_iff. lia.
Qed.

Lemma string_compare_lex s1 s2 :
  String.compare s1 s2 =
  lex_compare Ascii.compare (list_ascii_of_string s1) (list_ascii_of_string s2).
Proof.
  revert s2. induction s1 as [|a s1 IH]; intros [|b s2]; simpl; try done.
  by rewrite IH.
Qed.

#[global] Instance string_compare_order : CmpOrder String.compare.
Proof.
  split.
  - intros a b. rewrite string_compare_lex, cmp_eq_iff. split; [|by intros ->].
    intros E. by rewrite <-(string_of_list_ascii_of_string a), E,
      string_of_list_ascii_of_string.
  - intros a b. rewrite !string_compare_lex. apply (cmp_antisym (cmp:=lex_compare _)).
  - intros a b c. rewrite !string_compare_lex. apply cmp_lt_trans.
Qed.

Lemma string_ltb_compare s1 s2 : String.ltb s1 s2 = true ↔ String.compare s1 s2 = Lt.
Proof. unfold String.ltb. by destruct (String.compare s1 s2). Qed.

(** ** Ordered containers and [set_difference] *)

Lemma occurrences_nil `{EqDecision A} (x : A) : occurrences x [] = 0.
Proof. done. Qed.

Lemma occurrences_cons `{EqDecision A} (x y : A) l :
  occurrences x (y :: l) = (if decide (y = x) then 1 else 0) + occurrences x l.
Proof. unfold occurrences. rewrite filter_cons. by case_decide. Qed.

Lemma occurrences_app `{EqDecision A} (x : A) l1 l2 :
  occurrences x (l1 ++ l2) = occurrences x l1 + occurrences x l2.
Proof. unfold occurrences. by rewrite filter_app, length_app. Qed.

Lemma occurrences_perm `{EqDecision A} (x : A) l1 l2 :
  l1 ≡ₚ l2 → occurrences x l1 = occurrences x l2.
Proof. intros H. unfold occurrences. by rewrite H. Qed.

Lemma occurrences_pos `{EqDecision A} (x : A) l : 0 < occurrences x l ↔ x ∈ l.
Proof.
  induction l as [|y l IH]; [rewrite elem_of_nil, occurrences_nil; lia|].
  rewrite occurrences_cons, elem_of_cons, <-IH.
  case_decide; [subst; split; [by left|lia]|].
  split; [right; lia|intros [?|?]; [congruence|lia]].
Qed.

Lemma occurrences_zero `{EqDecision A} (x : A) l : x ∉ l → occurrences x l = 0.
Proof. rewrite <-occurrences_pos. lia. Qed.

Lemma occurrences_filter `{EqDecision A} (P : A → Prop) `{∀ y, Decision (P y)} (x : A) l :
  occurrences x (filter P l) = if decide (P x) then occurrences x l else 0.
Proof.
  induction l as [|y l IH]; [by case_decide|].
  rewrite filter_cons. destruct (decide (P y)) as [Hy|Hy].
  - rewrite !occurrences_cons, IH.
    destruct (decide (P x)), (decide (y = x)); subst; done.
  - rewrite occurrences_cons, IH.
    destruct (decide (P x)), (decide (y = x)); subst; done.
Qed.

Lemma ordered_insert_perm {A} (ltb : A → A → bool) x s : ordered_insert ltb x s ≡ₚ x :: s.
Proof.
  induction s as [|y s IH]; simpl; [done|].
  destruct (ltb x y); [done|]. rewrite IH. apply Permutation_swap.
Qed.

Lemma ordered_of_list_perm {A} (ltb : A → A → bool) l : ordered_of_list ltb l ≡ₚ l.
Proof.
  unfold ordered_of_list.
  enough (∀ acc, foldl (λ s x, ordered_insert ltb x s) acc l ≡ₚ acc ++ l) as H by apply H.
  induction l as [|x l IH]; intros acc; simpl; [by rewrite app_nil_r|].
  rewrite IH, ordered_insert_perm. simpl. apply Permutation_middle.
Qed.

Section strict_total.
Context {A : Type} (ltb : A → A → bool) `{!StrictTotal ltb} `{!EqDecision A}.

Lemma ltb_asym a b : ltb a b = true → ltb b a = false.
Proof.
  intros Hab. destruct (ltb b a) eqn:Hba; [|done].
  by rewrite <-(ltb_irrefl (ltb:=ltb) a), <-(ltb_trans a b a Hab Hba).
Qed.

Lemma not_after_trans a b c : not_after ltb a b → not_after ltb b c → not_after ltb a c.
Proof.
  unfold not_after. intros Hab Hbc. destruct (ltb c a) eqn:Hca; [|done].
  destruct (ltb a b) eqn:E.
  - by rewrite (ltb_trans c a b Hca E) in Hbc.
  - rewrite (ltb_total a b E Hab) in Hca. congruence.
Qed.

Lemma ltb_not_after_trans a b c : ltb a b = true → not_after ltb b c → ltb a c = true.
Proof.
  unfold not_after. intros Hab Hbc. destruct (ltb b c) eqn:E.
  - by apply ltb_trans with b.
  - by rewrite <-(ltb_total b c E Hbc).
Qed.

Lemma ordered_insert_sorted x s :
  StronglySorted (not_after ltb) s → StronglySorted (not_after ltb) (ordered_insert ltb x s).
Proof.
  induction 1 as [|y s Hs IH Hy]; simpl; [by repeat constructor|].
  destruct (ltb x y) eqn:E.
  - constructor; [by constructor|]. constructor; [by apply ltb_asym|].
    eapply Forall_impl; [exact Hy|]. intros z Hz. simpl in Hz.
    by apply ltb_asym, ltb_not_after_trans with y.
  - constructor; [done|]. rewrite ordered_insert_perm. by constructor.
Qed.

Lemma ordered_of_list_sorted l : StronglySorted (not_after ltb) (ordered_of_list ltb l).
Proof.
  unfold ordered_of_list.
  enough (∀ acc, StronglySorted (not_after ltb) acc →
                 StronglySorted (not_after ltb) (foldl (λ s x, ordered_insert ltb x s) acc l)) as H
    by (apply H; constructor).
  induction l as [|x l IH]; intros acc Hacc; simpl; [done|].
  by apply IH, ordered_insert_sorted.
Qed.

Lemma set_difference_nil_l l : set_difference ltb [] l = [].
Proof. by destruct l. Qed.

Lemma set_difference_nil_r l : set_difference ltb l [] = l.
Proof. by destruct l. Qed.

Lemma set_difference_cons x1 l1 x2 l2 :
  set_difference ltb (x1 :: l1) (x2 :: l2) =
  if ltb x1 x2 then x1 :: set_difference ltb l1 (x2 :: l2)
  else if ltb x2 x1 then set_difference ltb (x1 :: l1) l2
  else set_difference ltb l1 l2.
Proof. done. Qed.

Lemma sorted_before_not_elem a b l :
  ltb a b = true → Forall (not_after ltb b) l → a ∉ b :: l.
Proof.
  intros Hab Hl. rewrite not_elem_of_cons. split.
  - intros ->. by rewrite ltb_irrefl in Hab.
  - intros Hin. rewrite Forall_forall in Hl. pose proof (Hl _ Hin) as Hba.
    pose proof (ltb_not_after_trans _ _ _ Hab Hba) as Haa. by rewrite ltb_irrefl in Haa.
Qed.

(** On sorted ranges [set_difference] is the multiset difference. *)
Lemma set_difference_occurrences l1 l2 x :
  StronglySorted (not_after ltb) l1 → StronglySorted (not_after ltb) l2 →
  occurrences x (set_difference ltb l1 l2) = occurrences x l1 - occurrences x l2.
Proof.
  intros H1. revert l2. induction H1 as [|a l1 Hl1 IH1 Ha]; intros l2 H2;
    [by rewrite set_difference_nil_l|].
  induction H2 as [|b l2 Hl2 IH2 Hb]; [rewrite set_difference_nil_r, occurrences_nil; lia|].
  rewrite set_difference_cons.
  destruct (ltb a b) eqn:Eab; [|destruct (ltb b a) eqn:Eba].
  - rewrite (occurrences_cons x a), (occurrences_cons x a l1), IH1 by by constructor.
    case_decide as Hax; [|done]. subst a.
    rewrite (occurrences_zero x (b :: l2)) by by apply sorted_before_not_elem.
    lia.
  - rewrite IH2, (occurrences_cons x b l2).
    case_decide as Hbx; [|done]. subst b.
    rewrite (occurrences_zero x (a :: l1)) by by apply sorted_before_not_elem.
    lia.
  - rewrite (ltb_total a b Eab Eba), IH1, !occurrences_cons by done. lia.
Qed.

End strict_total.

(** ** Rows as ordered maps *)

Lemma map_items_perm (m : gmap string string) : map_items m ≡ₚ map_to_list m.
Proof. apply ordered_of_list_perm. Qed.

Lemma NoDup_fst_map_items (m : gmap string string) : NoDup (map_items m).*1.
Proof. rewrite map_items_perm. apply NoDup_fst_map_to_list. Qed.

Lemma elem_of_map_items (m : gmap string string) k v :
  (k, v) ∈ map_items m ↔ m !! k = Some v.
Proof. by rewrite map_items_perm, elem_of_map_to_list. Qed.

Lemma list_to_map_items (m : gmap string string) : list_to_map (map_items m) = m.
Proof.
  rewrite <-(list_to_map_to_list m) at 2.
  apply list_to_map_proper; [apply NoDup_fst_map_items|apply map_items_perm].
Qed.

Lemma map_items_inj (m1 m2 : gmap string string) : map_items m1 = map_items m2 → m1 = m2.
Proof. intros E. by rewrite <-(list_to_map_items m1), E, list_to_map_items. Qed.

Lemma length_map_items (m : gmap string string) : length (map_items m) = size m.
Proof. by rewrite map_items_perm, length_map_to_list. Qed.

#[global] Instance Row_compare_order : CmpOrder Row_compare.
Proof.
  pose proof (lex_compare_order (pair_compare String.compare String.compare) _) as H.
  split; unfold Row_compare.
  - intros r1 r2. rewrite (cmp_eq_iff (cmp:=lex_compare _)).
    split; [apply map_items_inj|by intros ->].
  - intros r1 r2. apply (cmp_antisym (cmp:=lex_compare _)).
  - intros r1 r2 r3. apply (cmp_lt_trans (cmp:=lex_compare _)).
Qed.

Lemma Row_ltb_compare r1 r2 : Row_ltb r1 r2 = true ↔ Row_compare r1 r2 = Lt.
Proof.
  apply lexicographical_compare_lex; [apply _|].
  apply pair_ltb_compare; [apply _|apply string_ltb_compare..].
Qed.

#[global] Instance Row_ltb_strict_total : StrictTotal Row_ltb.
Proof. apply (strict_total_of_cmp Row_compare), Row_ltb_compare. Qed.

Lemma multiset_of_occurrences (r : Row) q : occurrences r (multiset_of q) = occurrences r q.
Proof. apply occurrences_perm, ordered_of_list_perm. Qed.

(** ** The differ *)

Lemma found_iff (i : Row) (old : QueryData) : found i old = true ↔ i ∈ old.
Proof. unfold found. apply bool_decide_eq_true. Qed.

(** The loop of [diff] splits [current] into the rows found in [old] and
    the others, keeping their order. *)
Lemma diff_loop (old current overlap r_added : QueryData) :
  foldl (λ '(overlap, r_added) i,
           if found i old then (overlap ++ [i], r_added)
           else (overlap, r_added ++ [i]))
        (overlap, r_added) current =
  (overlap ++ filter (λ i, i ∈ old) current, r_added ++ filter (λ i, i ∉ old) current).
Proof.
  revert overlap r_added. induction current as [|i current IH]; intros overlap r_added; simpl.
  - by rewrite !app_nil_r.
  - rewrite !filter_cons. destruct (found i old) eqn:Hi.
    + apply found_iff in Hi.
      rewrite IH, decide_True, decide_False by auto. by rewrite <-app_assoc.
    + apply not_true_iff_false in Hi. rewrite found_iff in Hi.
      rewrite IH, decide_False, decide_True by auto. by rewrite <-app_assoc.
Qed.

Lemma diff_unfold (old current : QueryData) :
  diff old current =
  {| added := filter (λ i, i ∉ old) current;
     removed := set_difference Row_ltb (multiset_of old)
                  (multiset_of (filter (λ i, i ∈ old) current)) |}.
Proof. unfold diff. by rewrite diff_loop. Qed.

Lemma diff_removed_occurrences (old current : QueryData) (r : Row) :
  occurrences r (removed (diff old current)) = occurrences r old - occurrences r current.
Proof.
  rewrite diff_unfold; simpl.
  rewrite (set_difference_occurrences Row_ltb) by apply ordered_of_list_sorted, _.
  rewrite !multiset_of_occurrences, occurrences_filter.
  case_decide as Hr; [done|]. rewrite (occurrences_zero r old) by done. lia.
Qed.

(** C1 (as amended): every row of [added] is absent from [old]; every row
    of [removed] is present in [old] and has fewer equal instances in
    [current] than in [old]; [removed] holds, for each row, as many copies
    as [old] has more than [current]. *)
Theorem diff_multiset_invariant (old current : QueryData) :
  DiffResults_multiset_invariant old current (diff old current).
Proof.
  split; [|split].
  - intros r. rewrite diff_unfold; simpl. rewrite list_elem_of_filter. tauto.
  - intros r Hr. apply occurrences_pos in Hr. rewrite diff_removed_occurrences in Hr.
    split; [apply occurrences_pos|]; lia.
  - apply diff_removed_occurrences.
Qed.

Lemma diff_duplicate_old (r : Row) :
  removed (diff [r; r] [r]) = [r] ∧ added (diff [r; r] [r]) = [].
Proof.
  rewrite diff_unfold. rewrite !filter_cons, !filter_nil.
  rewrite decide_False, decide_True by (rewrite ?elem_of_cons; tauto).
  unfold multiset_of, ordered_of_list; simpl.
  rewrite (ltb_irrefl (ltb:=Row_ltb)), set_difference_cons, (ltb_irrefl (ltb:=Row_ltb)).
  by rewrite set_difference_nil_r.
Qed.

(** C2: with two identical rows in the old snapshot and one matching
    instance in the new one, [removed] is exactly one copy of the row and
    [added] is empty. *)
Theorem diff_two_copies_one_match (r : Row) :
  diff [r; r] [r] = {| added := []; removed := [r] |}.
Proof.
  destruct (diff_duplicate_old r) as [Hremoved Hadded].
  destruct (diff [r; r] [r]) as [a d]. simpl in *. by subst.
Qed.

(** C10 (as amended): the row is appended and [true] returned exactly when
    no equal row is in the sequence; otherwise [false] is returned and the
    sequence is unchanged; a sequence without two equal rows stays so. *)
Theorem addUniqueRowToQueryData_unique (q : QueryData) (r : Row) :
  unique_insert q r (addUniqueRowToQueryData q r) ∧
  (NoDup q → NoDup (addUniqueRowToQueryData q r).2).
Proof.
  unfold unique_insert, addUniqueRowToQueryData, found.
  case_bool_decide as Hr; simpl.
  - split; [split|done]; [|done]. split; [intros [=]|done].
  - split; [split|]; [done|done|].
    intros Hq. apply NoDup_app. split; [done|]. split; [|apply NoDup_singleton].
    intros x Hx. rewrite list_elem_of_singleton. by intros ->.
Qed.

(** ** Property trees *)

Ltac solve_simple_key := by apply (bool_decide_unpack _).
Ltac solve_fresh_key := simpl; by apply (bool_decide_unpack _).

Lemma split_path_no_dot k :
  "."%char ∉ list_ascii_of_string k → pt.split_path k = [k].
Proof.
  induction k as [|c k IH]; simpl; [done|].
  rewrite not_elem_of_cons. intros [Hc Hk].
  destruct (decide (c = "."%char)) as [->|_]; [done|]. by rewrite IH.
Qed.

Lemma walk_fragments_simple k : simple_key k → pt.walk_fragments k = [k].
Proof.
  intros [Hne Hdot]. unfold pt.walk_fragments. rewrite split_path_no_dot by done.
  simpl. by rewrite decide_False.
Qed.

Lemma find_None key cs : pt.find key cs = None ↔ key ∉ cs.*1.
Proof.
  induction cs as [|[k c] cs IH]; simpl;
    [split; [intros _; apply not_elem_of_nil|done]|].
  rewrite not_elem_of_cons. case_decide; [|rewrite IH]; naive_solver.
Qed.

Lemma find_app key cs1 cs2 :
  pt.find key (cs1 ++ cs2) =
  match pt.find key cs1 with Some c => Some c | None => pt.find key cs2 end.
Proof.
  induction cs1 as [|[k c] cs1 IH]; simpl; [done|]. by case_decide.
Qed.

(** On a fresh simple name [put] appends a leaf. *)
Lemma put_fresh k v t :
  simple_key k → k ∉ (pt.children t).*1 → pt.put k v t = pt.push_back (k, pt.leaf v) t.
Proof.
  intros Hk Hfresh. apply find_None in Hfresh.
  unfold pt.put, pt.get_child_optional, pt.put_child.
  rewrite walk_fragments_simple by done. simpl. rewrite Hfresh.
  rewrite split_path_no_dot by apply Hk. simpl.
  unfold pt.force_child. by rewrite Hfresh.
Qed.

Lemma add_child_simple k value t :
  simple_key k → pt.add_child k value t = pt.push_back (k, value) t.
Proof. intros [_ Hk]. unfold pt.add_child. by rewrite split_path_no_dot. Qed.

Lemma fold_put_fresh items t :
  Forall simple_key items.*1 → NoDup items.*1 →
  (∀ k, k ∈ items.*1 → k ∉ (pt.children t).*1) →
  foldl (λ t i, pt.put i.1 i.2 t) t items =
  pt.Node (pt.data t) (pt.children t ++ leaves items).
Proof.
  revert t. induction items as [|[k v] items IH]; intros t Hs Hnd Hfresh; simpl.
  - rewrite app_nil_r. by destruct t.
  - apply Forall_cons in Hs as [Hk Hs]. apply NoDup_cons in Hnd as [Hk' Hnd].
    rewrite put_fresh; [|done|apply Hfresh; simpl; left].
    rewrite IH; [|done|done|].
    + simpl. by rewrite <-app_assoc.
    + intros k2 Hk2. simpl. rewrite fmap_app, elem_of_app. simpl.
      rewrite list_elem_of_singleton. intros [Hin | ->]; [|done].
      by eapply Hfresh; [right|].
Qed.

Lemma simple_keys_items (m : gmap string string) :
  simple_keys m → Forall simple_key (map_items m).*1.
Proof.
  intros Hm. apply Forall_forall. intros k [[k' v] [-> Hin]]%list_elem_of_fmap.
  apply elem_of_map_items in Hin. by apply (Hm _ _ Hin).
Qed.

(** A map with simple names becomes one leaf per entry, in key order. *)
Lemma fold_put_items (m : gmap string string) :
  simple_keys m →
  foldl (λ t i, pt.put i.1 i.2 t) pt.empty (map_items m) = pt.Node "" (leaves (map_items m)).
Proof.
  intros Hm. rewrite fold_put_fresh; [done|by apply simple_keys_items|
    apply NoDup_fst_map_items|]. intros k _. simpl. apply not_elem_of_nil.
Qed.

Lemma serializeRow_simple (r : Row) :
  simple_keys r →
  serializeRow r pt.empty = (mkStatus 0 "OK", pt.Node "" (leaves (map_items r))).
Proof. intros Hr. unfold serializeRow. by rewrite fold_put_items. Qed.

Lemma foldl_insert_list_to_map (items : list (string * string)) (r0 : Row) :
  NoDup items.*1 →
  foldl (λ r i, <[i.1 := i.2]> r) r0 items = list_to_map items ∪ r0.
Proof.
  revert r0. induction items as [|[k v] items IH]; intros r0 Hnd; simpl.
  - by rewrite (left_id_L ∅ (∪)).
  - apply NoDup_cons in Hnd as [Hk Hnd]. rewrite IH by done.
    rewrite <-insert_union_l. symmetry. apply insert_union_r.
    by apply not_elem_of_list_to_map_1.
Qed.

Lemma deserializeRow_leaves d items (r0 : Row) :
  Forall (λ k, k ≠ "") items.*1 →
  deserializeRow (pt.Node d (leaves items)) r0 =
  (mkStatus 0 "OK", foldl (λ r i, <[i.1 := i.2]> r) r0 items).
Proof.
  unfold deserializeRow. simpl. intros Hne. f_equal.
  revert r0. induction items as [|[k v] items IH]; intros r0; simpl; [done|].
  apply Forall_cons in Hne as [Hk Hne]. rewrite decide_True; [by apply IH|].
  destruct k; simpl; [done|lia].
Qed.

Lemma Row_roundtrip_simple (r : Row) : simple_keys r → Row_roundtrip r.
Proof.
  intros Hr. eexists. split; [by apply serializeRow_simple|].
  rewrite deserializeRow_leaves.
  - rewrite foldl_insert_list_to_map by apply NoDup_fst_map_items.
    by rewrite (right_id_L ∅ (∪)), list_to_map_items.
  - eapply Forall_impl; [by apply simple_keys_items|]. by intros k [? _].
Qed.

Arguments serializeRow : simpl never.
Arguments deserializeRow : simpl never.

Lemma serializeQueryData_trees (q : QueryData) t :
  serializeQueryData q t =
  (mkStatus 0 "OK",
   pt.Node (pt.data t)
     (pt.children t ++ ((λ r, ("", (serializeRow r pt.empty).2)) <$> q))).
Proof.
  revert t. induction q as [|r q IH]; intros t; simpl.
  - rewrite app_nil_r. by destruct t.
  - rewrite IH. simpl. by rewrite <-app_assoc.
Qed.

Lemma deserializeQueryData_trees (q : QueryData) d qd :
  Forall Row_roundtrip q →
  deserializeQueryData (pt.Node d ((λ r, ("", (serializeRow r pt.empty).2)) <$> q)) qd =
  (mkStatus 0 "OK", qd ++ q).
Proof.
  unfold deserializeQueryData. cbn. intros Hq. revert qd.
  induction Hq as [|r q (tree & Hser & Hde) Hq IH]; intros qd; cbn.
  - by rewrite app_nil_r.
  - rewrite Hser. cbn. rewrite Hde. cbn. by rewrite IH, <-app_assoc.
Qed.

Lemma QueryData_roundtrip_rows (q : QueryData) : Forall Row_roundtrip q → QueryData_roundtrip q.
Proof.
  intros Hq. eexists. split; [apply serializeQueryData_trees|].
  simpl. by rewrite deserializeQueryData_trees.
Qed.

Lemma serializeDiffResults_trees (d : DiffResults) :
  serializeDiffResults d pt.empty =
  (mkStatus 0 "OK",
   pt.Node "" [("added", pt.Node "" ((λ r, ("", (serializeRow r pt.empty).2)) <$> added d));
               ("removed", pt.Node "" ((λ r, ("", (serializeRow r pt.empty).2)) <$> removed d))]).
Proof. unfold serializeDiffResults. by rewrite !serializeQueryData_trees. Qed.

Lemma DiffResults_roundtrip_rows (d : DiffResults) :
  Forall Row_roundtrip (added d) → Forall Row_roundtrip (removed d) →
  DiffResults_roundtrip d.
Proof.
  intros Ha Hr. destruct d as [a r]. simpl in *. eexists. split.
  - unfold serializeDiffResults. simpl. by rewrite !serializeQueryData_trees.
  - unfold deserializeDiffResults. simpl.
    rewrite deserializeQueryData_trees by done. simpl.
    by rewrite deserializeQueryData_trees by done.
Qed.

(** C3 (as amended): for rows whose column names are non-empty and have
    no ['.'], serializing into an empty tree and deserializing into an
    empty target gives the value back: a [Row], a [QueryData] and a
    [DiffResults]. *)
Theorem serialize_deserialize_roundtrip (r : Row) (q : QueryData) (d : DiffResults) :
  (simple_keys r → Row_roundtrip r) ∧
  (Forall simple_keys q → QueryData_roundtrip q) ∧
  (Forall simple_keys (added d) → Forall simple_keys (removed d) → DiffResults_roundtrip d).
Proof.
  split; [apply Row_roundtrip_simple|]. split.
  - intros Hq. apply QueryData_roundtrip_rows.
    eapply Forall_impl; [done|apply Row_roundtrip_simple].
  - intros Ha Hr. apply DiffResults_roundtrip_rows;
      (eapply Forall_impl; [done|apply Row_roundtrip_simple]).
Qed.

(** ** QueryLogItem documents *)





Lemma size_pos_items (decs : gmap string string) :
  ¬ 0 < size decs → map_items decs = [].
Proof.
  intros H. apply length_zero_iff_nil. rewrite length_map_items. lia.
Qed.







Lemma get_child_optional_simple k t :
  simple_key k → pt.get_child_optional k t = pt.find k (pt.children t).
Proof.
  intros Hk. unfold pt.get_child_optional. rewrite walk_fragments_simple by done.
  simpl. by destruct (pt.find k (pt.children t)).
Qed.








(** ** Writes by path leave the other top-level children alone *)

Lemma same_child_refl key t : same_child key t t.
Proof. done. Qed.

Lemma same_child_trans key t1 t2 t3 :
  same_child key t1 t2 → same_child key t2 t3 → same_child key t1 t3.
Proof. intros [? ?] [? ?]. split; congruence. Qed.

Lemma same_child_alter_first key f g d cs :
  f ≠ key → same_child key (pt.Node d (pt.alter_first f g cs)) (pt.Node d cs).
Proof.
  intros Hne. unfold same_child, pt.count. simpl.
  induction cs as [|[k c] cs [IH1 IH2]]; simpl; [done|].
  destruct (decide (k = f)) as [->|Hk]; simpl.
  - rewrite !decide_False by done. by rewrite !filter_cons_False by done.
  - rewrite IH1. split; [done|]. rewrite !filter_cons. simpl.
    case_decide; simpl; by rewrite ?IH2.
Qed.

Lemma same_child_push_back key f c t :
  f ≠ key → same_child key (pt.push_back (f, c) t) t.
Proof.
  intros Hne. unfold same_child, pt.count, pt.push_back. simpl.
  rewrite find_app, filter_app, length_app. simpl.
  rewrite decide_False, filter_cons_False by done. simpl.
  split; [by destruct (pt.find key (pt.children t))|lia].
Qed.

Lemma same_child_put_value key v t : same_child key (pt.put_value v t) t.
Proof. done. Qed.

Lemma same_child_force_child key f g t :
  f ≠ key → same_child key (pt.force_child f g t) t.
Proof.
  intros Hne. unfold pt.force_child. destruct (pt.find f (pt.children t)).
  - destruct t as [d cs]. by apply same_child_alter_first.
  - by apply same_child_push_back.
Qed.

Lemma split_path_cons p : ∃ f fs, pt.split_path p = f :: fs.
Proof.
  destruct p as [|c p]; simpl; [by eauto|].
  case_decide; [by eauto|]. destruct (pt.split_path p); eauto.
Qed.

Lemma walk_fragments_of_head f fs :
  pt.walk_fragments_of (f :: fs) = [] ∨ ∃ ws, pt.walk_fragments_of (f :: fs) = f :: ws.
Proof.
  simpl. destruct fs; [case_decide|]; eauto.
Qed.

(** A [put] touches only the top-level child its first fragment names. *)
Lemma same_child_put key path v t :
  first_fragment path ≠ key → same_child key (pt.put path v t) t.
Proof.
  unfold first_fragment, pt.put, pt.get_child_optional, pt.put_child, pt.walk_fragments.
  destruct (split_path_cons path) as (f & fs & ->). simpl hd. intros Hne.
  destruct (pt.walk_path _ t).
  - destruct (walk_fragments_of_head f fs) as [->|[ws ->]]; [done|].
    destruct t as [d cs]. by apply same_child_alter_first.
  - by apply same_child_force_child.
Qed.

Lemma same_child_fold_put key (items : list (string * string)) t :
  Forall (λ k, first_fragment k ≠ key) items.*1 →
  same_child key (foldl (λ t i, pt.put i.1 i.2 t) t items) t.
Proof.
  revert t. induction items as [|[k v] items IH]; intros t Hk; simpl; [done|].
  apply Forall_cons in Hk as [Hk Hks].
  eapply same_child_trans; [by apply IH|]. by apply same_child_put.
Qed.

Lemma clear_fragments flag reserved (decs : gmap string string) key :
  top_level_clear flag reserved decs → flag = true → key ∈ reserved →
  Forall (λ k, first_fragment k ≠ key) (map_items decs).*1.
Proof.
  intros [->|Hc] Hflag Hkey; [done|]. apply Forall_forall.
  intros k [[k' v] [-> Hin]]%list_elem_of_fmap. apply elem_of_map_items in Hin.
  intros Heq. apply (Hc _ _ Hin). simpl in *. by rewrite Heq.
Qed.

(** The legacy fields and decorations leave the payload fields alone. *)
Lemma addLegacyFieldsAndDecorations_same_child flag item t :
  top_level_clear flag payload_reserved (decorations item) →
  ∃ t', addLegacyFieldsAndDecorations flag item t = Returns t' ∧
        ∀ key, key ∈ payload_reserved → same_child key t' t.
Proof.
  intros Hc. unfold addLegacyFieldsAndDecorations, pt.put_int.
  set (t4 := pt.put "unixTime" _ _).
  assert (∀ key, key ∈ payload_reserved → same_child key t4 t) as H4.
  { intros key Hkey. unfold payload_reserved in Hkey.
    repeat (eapply same_child_trans; [apply same_child_put; cbv; set_solver|]).
    done. }
  case_decide; [|by eauto]. destruct flag; simpl.
  - eexists. split; [done|]. intros key Hkey.
    eapply same_child_trans; [|by apply H4].
    by eapply same_child_fold_put, clear_fragments.
  - rewrite add_child_simple by solve_simple_key.
    unfold pt.get_child. rewrite get_child_optional_simple by solve_simple_key.
    unfold pt.push_back. simpl pt.children. rewrite find_app. simpl pt.find.
    destruct (pt.find "decorations" (pt.children t4)); simpl;
      (eexists; split; [done|]); intros key Hkey;
      (eapply same_child_trans; [|by apply H4]);
      (eapply same_child_trans;
         [apply same_child_alter_first
         |apply (same_child_push_back key "decorations" pt.empty t4)]);
      unfold payload_reserved in Hkey; set_solver.
Qed.

Lemma get_child_same k t1 t2 :
  simple_key k → same_child k t1 t2 → pt.get_child k t1 = pt.get_child k t2.
Proof.
  intros Hk [Hfind _]. unfold pt.get_child.
  by rewrite !get_child_optional_simple, Hfind by done.
Qed.

Lemma get_same k default t1 t2 :
  simple_key k → same_child k t1 t2 → pt.get k default t1 = pt.get k default t2.
Proof.
  intros Hk [Hfind _]. unfold pt.get.
  by rewrite !get_child_optional_simple, Hfind by done.
Qed.

(** C8 (as amended): when decorations are nested, or at top level with no
    name that starts with [diffResults], [snapshot] or [action], the
    document has a [diffResults] child, the DiffResults tree, exactly when
    [added] or [removed] is non-empty; otherwise, also with an empty
    snapshot, it has a [snapshot] child, the QueryData tree, and its
    [action] is "snapshot". *)
Theorem serializeQueryLogItem_payload flag (item : QueryLogItem) :
  top_level_clear flag payload_reserved (decorations item) →
  payload_selected flag item.
Proof.
  intros Hc. unfold payload_selected, serializeQueryLogItem.
  destruct item as [[a r] snap nm ident tm cal decs]. simpl in *.
  case_decide as Hdiff.
  - rewrite serializeDiffResults_trees. cbn -[pt.add_child].
    rewrite add_child_simple by solve_simple_key.
    edestruct addLegacyFieldsAndDecorations_same_child as (t' & -> & Hsame); [done|].
    eexists. split; [done|].
    rewrite decide_False by (intros [-> ->]; simpl in Hdiff; lia).
    rewrite (get_child_same "diffResults" _ _ ltac:(solve_simple_key)
               (Hsame "diffResults" ltac:(solve_simple_key))).
    by rewrite (proj2 (Hsame "snapshot" ltac:(solve_simple_key))).
  - rewrite serializeQueryData_trees. cbn -[pt.add_child pt.put].
    rewrite add_child_simple by solve_simple_key.
    rewrite put_fresh; [|solve_simple_key|solve_fresh_key].
    edestruct addLegacyFieldsAndDecorations_same_child as (t' & -> & Hsame); [done|].
    eexists. split; [done|].
    rewrite decide_True by (destruct a, r; simpl in Hdiff; first [done|lia]).
    rewrite (get_child_same "snapshot" _ _ ltac:(solve_simple_key)
               (Hsame "snapshot" ltac:(solve_simple_key))).
    rewrite (get_same "action" _ _ _ ltac:(solve_simple_key)
               (Hsame "action" ltac:(solve_simple_key))).
    by rewrite (proj2 (Hsame "diffResults" ltac:(solve_simple_key))).
Qed.

(** ** The database plugin *)

Section database_plugin_properties.
Context {B : Type} {plugin : DatabasePlugin B}.


(** C6: without an [action], with [put] and no [value], or with an unknown
    action, [call] returns a failure status, leaves the world as it was
    whatever the backend's methods would do, and returns the response
    unchanged. *)
Theorem call_rejects_without_effect (request : PluginRequest) (response : PluginResponse)
    (w : World B) :
  request !! "action" = None ∨
  (request !! "action" = Some "put" ∧ request !! "value" = None) ∨
  (∃ action, request !! "action" = Some action ∧
             action ∉ ["get"; "put"; "remove"; "scan"]) →
  ∃ status,
    call request response w = (Returns (status, response), w) ∧ ok status = false.
Proof.
  unfold call, request_count, request_at, bind, lift, ret.
  intros [Hnone|[[Hput Hvalue]|(action & Haction & Hunknown)]].
  - rewrite Hnone. simpl. by eexists.
  - rewrite Hput, Hvalue. simpl.
    destruct (request !! "domain"), (request !! "key"); simpl; by eexists.
  - rewrite Haction. simpl. rewrite !not_elem_of_cons in Hunknown.
    destruct Hunknown as (? & ? & ? & ? & _).
    destruct (request !! "domain"), (request !! "key"); simpl;
      rewrite !decide_False by done; by eexists.
Qed.

End database_plugin_properties.

(** C4: with writes required, a read-only handle and a successful
    [setUp], [checkDB] returns [true]: the refusal is overwritten by
    [status.ok()]. *)
Theorem checkDB_read_only_passes :
  checkDB (plugin:=recording_plugin) world_read_only =
  (Returns true, mkWorld false true false true ["setUp"; "tearDown"]).
Proof. reflexivity. Qed.

(** C5: a scan request without [prefix], or with a [max] that is no
    numeral, makes [call] throw. *)
Theorem call_scan_throws :
  call (plugin:=recording_plugin) request_scan_no_prefix [] world_idle =
    (Throws (out_of_range "map::at"), world_idle) ∧
  call (plugin:=recording_plugin) request_scan_bad_max [] world_idle =
    (Throws (invalid_argument "stoul"), world_idle).
Proof. split; reflexivity. Qed.

(** ** The statements of the specification at concrete inputs *)

(** C1, as stated, fails: with two copies of a row in the old snapshot and
    one in the new, the row is removed although the new snapshot has a
    matching instance. *)
Lemma diff_removed_row_matches_current :
  ¬ DiffResults_invariant [row_a1; row_a1] [row_a1] (diff [row_a1; row_a1] [row_a1]).
Proof.
  intros [_ Hremoved]. destruct (Hremoved row_a1) as [_ Hcurrent].
  - rewrite (proj1 (diff_duplicate_old row_a1)). apply list_elem_of_here.
  - apply Hcurrent, list_elem_of_here.
Qed.

Lemma diff_multiset_invariant_witness :
  DiffResults_multiset_invariant [row_a1; row_a1] [row_a1] (diff [row_a1; row_a1] [row_a1]).
Proof. apply diff_multiset_invariant. Defined.

Lemma diff_two_copies_one_match_witness :
  diff [row_a1; row_a1] [row_a1] = {| added := []; removed := [row_a1] |}.
Proof. apply diff_two_copies_one_match. Defined.

(** C3, as stated, fails: a row with an empty column name does not come
    back. *)
Lemma Row_roundtrip_empty_name : ¬ Row_roundtrip row_empty_name.
Proof.
  intros (tree & Hser & Hde). vm_compute in Hser. injection Hser as <-.
  apply (f_equal (λ res, res.2 !! "")) in Hde. by vm_compute in Hde.
Qed.

Lemma serialize_deserialize_roundtrip_witness :
  (simple_keys row_a1 ∧ Row_roundtrip row_a1) ∧
  (Forall simple_keys [row_a1; row_b2] ∧ QueryData_roundtrip [row_a1; row_b2]) ∧
  (Forall simple_keys [row_a1] ∧ Forall simple_keys [row_b2] ∧
   DiffResults_roundtrip (mkDiffResults [row_a1] [row_b2])).
Proof.
  assert (simple_keys row_a1) as Ha by by apply (bool_decide_unpack _).
  assert (simple_keys row_b2) as Hb by by apply (bool_decide_unpack _).
  destruct (serialize_deserialize_roundtrip row_a1 [row_a1; row_b2]
              (mkDiffResults [row_a1] [row_b2])) as (Hrow & Hdata & Hdiff).
  assert (Forall simple_keys [row_a1; row_b2]) as Hab by by apply (bool_decide_unpack _).
  assert (Forall simple_keys [row_a1]) as Ha1 by by apply (bool_decide_unpack _).
  assert (Forall simple_keys [row_b2]) as Hb1 by by apply (bool_decide_unpack _).
  split; [split; [exact Ha|exact (Hrow Ha)]|].
  split; [split; [exact Hab|exact (Hdata Hab)]|].
  split; [exact Ha1|]. split; [exact Hb1|exact (Hdiff Ha1 Hb1)].
Defined.



(** C8, as stated, fails: with decorations at top level, a decoration
    named [action] replaces the "snapshot" action. *)
Lemma payload_action_overwritten : ¬ payload_selected true item_decorated_action.
Proof.
  intros (tree & Hser & Hsel). vm_compute in Hser. injection Hser as <-.
  rewrite decide_True in Hsel by done. destruct Hsel as (_ & _ & Haction).
  by vm_compute in Haction.
Qed.

Lemma serializeQueryLogItem_payload_witness :
  top_level_clear false payload_reserved (decorations item_decorated_action) ∧
  payload_selected false item_decorated_action.
Proof.
  assert (top_level_clear false payload_reserved (decorations item_decorated_action))
    as Hc by by left.
  split; [done|]. by apply serializeQueryLogItem_payload.
Defined.

(** C10, as stated, fails: a sequence that already holds two equal rows
    still holds them afterwards. *)
Lemma addUniqueRowToQueryData_keeps_duplicates :
  ¬ (unique_insert [row_a1; row_a1] row_a1 (addUniqueRowToQueryData [row_a1; row_a1] row_a1) ∧
     NoDup (addUniqueRowToQueryData [row_a1; row_a1] row_a1).2).
Proof.
  intros [_ Hnodup]. unfold addUniqueRowToQueryData in Hnodup.
  rewrite (proj2 (found_iff row_a1 [row_a1; row_a1])) in Hnodup by apply list_elem_of_here.
  simpl in Hnodup. apply NoDup_cons in Hnodup as [Hnotin _].
  apply Hnotin, list_elem_of_here.
Qed.

Lemma addUniqueRowToQueryData_unique_witness :
  NoDup [row_a1] ∧
  unique_insert [row_a1] row_b2 (addUniqueRowToQueryData [row_a1] row_b2) ∧
  NoDup (addUniqueRowToQueryData [row_a1] row_b2).2.
Proof.
  assert (NoDup [row_a1]) as Hq by apply NoDup_singleton.
  destruct (addUniqueRowToQueryData_unique [row_a1] row_b2) as [Hinsert Hnodup].
  split; [done|]. split; [done|]. by apply Hnodup.
Defined.

Lemma call_rejects_without_effect_witness :
  request_bogus !! "action" = Some "bogus" ∧
  ("bogus" ∉ ["get"; "put"; "remove"; "scan"]) ∧
  (∃ status,
     call (plugin:=recording_plugin) request_bogus [] world_idle =
       (Returns (status, []), world_idle) ∧ ok status = false).
Proof.
  assert (request_bogus !! "action" = Some "bogus") as Haction by reflexivity.
  assert ("bogus" ∉ ["get"; "put"; "remove"; "scan"]) as Hunknown
    by by apply (bool_decide_unpack _).
  split; [done|]. split; [done|].
  apply (call_rejects_without_effect (plugin:=recording_plugin)).
  right. right. by exists "bogus".
Defined.


